(** * AI/ML Salary Insights Dashboard: a shallow embedding of [Streamlit_app.py]

    The script is a straight-line pandas pipeline: load a table, add the
    [country_name] column, filter by the three sidebar widgets, and build
    three group-by/median aggregates that are handed to the charts and to
    the "highest paid job" card.

    Conventions of the embedding
    - a DataFrame is the list of its rows, in row order; a Series is the
      list of its values (paired with its index where the index matters);
      the columns the script reads have no missing cells;
    - [salary_in_usd] is an integer column; medians are float64 in pandas
      and exact rationals here (salaries are far below 2^52, where the
      halving of a sum of two integers is exact), kept in lowest terms so
      that equal medians are equal terms; NaN is [None];
    - strings are byte strings and compare byte by byte, which is Python's
      code-point order on UTF-8 text;
    - Python exceptions are the [Raise] results of [pyresult]; the Streamlit
      page is the list of elements rendered so far, threaded through the
      script by the [App] monad;
    - the two external tables the script consults, the ISO country registry
      of [pycountry] and the sort kernel of numpy, are interfaces
      ([Registry], [SortKernel]). *)

From Stdlib Require Import ZArith QArith String Ascii List DecimalString DecimalPos DecimalZ.
From stdpp Require Import base tactics option list sorting strings numbers gmap.

Local Open Scope Z_scope.
Local Open Scope string_scope.
Local Open Scope list_scope.

(** ** Python results and exceptions *)

Module Py.

Inductive exn : Type :=
| IndexError
| AttributeError
| LookupError
| KeyError
| ValueError.

Inductive pyresult (A : Type) : Type :=
| Ok (a : A)
| Raise (e : exn).
Global Arguments Ok {A} a.
Global Arguments Raise {A} e.

Global Instance pyresult_ret : MRet pyresult := λ A a, Ok a.
Global Instance pyresult_bind : MBind pyresult := λ A B f m,
  match m with
  | Ok a => f a
  | Raise e => Raise e
  end.

(** [try: body  except: handler] with a bare [except], which catches every
    exception. *)
Definition try_except {A} (body : pyresult A) (handler : exn → pyresult A)
  : pyresult A :=
  match body with
  | Ok a => Ok a
  | Raise e => handler e
  end.

(** [Series.apply(f)]: [f] is called on each value in order; an exception
    of [f] propagates. *)
Fixpoint apply {A B} (f : A → pyresult B) (col : list A) : pyresult (list B) :=
  match col with
  | [] => Ok []
  | x :: col' => y ← f x; ys ← apply f col'; mret (y :: ys)
  end.

End Py.
Import Py.

(** ** The data model *)

(** One row of [salaries.csv] (the columns the script reads). *)
Record SalaryRecord : Type := mkRecord {
  work_year : Z;
  experience_level : string;
  employee_residence : string;
  job_title : string;
  salary_in_usd : Z
}.

(** A row of [df] after [df["country_name"] = ...]. *)
Record Row : Type := mkRow {
  source :> SalaryRecord;
  country_name : string
}.

Global Instance SalaryRecord_eq_dec : EqDecision SalaryRecord.
Proof. solve_decision. Defined.
Global Instance Row_eq_dec : EqDecision Row.
Proof. solve_decision. Defined.

(** ** The country registry ([pycountry.countries]) *)

Record Country : Type := mkCountry {
  alpha_2 : string;
  name : string
}.

(** [pycountry.countries.get(alpha_2=code)]: the entry, [None] on a miss
    (older releases raise [KeyError] instead), [LookupError] when the value
    is no string. *)
Class Registry : Type := countries_get : string → pyresult (option Country).

(** Attribute access [.name] on the result of [get]: [None] has no such
    attribute. *)
Definition getattr_name (o : option Country) : pyresult string :=
  match o with
  | Some c => Ok (name c)
  | None => Raise AttributeError
  end.

Section Enrichment.
Context {registry : Registry}.

Definition code_to_country (code : string) : pyresult string :=
  try_except
    (c ← countries_get code; getattr_name c)
    (λ _, Ok code).

(** [df["country_name"] = df["employee_residence"].apply(code_to_country)] *)
Definition enrich (df : list SalaryRecord) : pyresult (list Row) :=
  names ← apply code_to_country (employee_residence <$> df);
  mret (zip_with mkRow df names).

(** The value [code_to_country] returns, read off the registry, and the
    table [enrich] returns (see [code_to_country_display], [enrich_Ok]). *)
Definition display_name (code : string) : string :=
  match countries_get code with
  | Ok (Some c) => name c
  | _ => code
  end.

Definition enriched (csv : list SalaryRecord) : list Row :=
  (λ r, mkRow r (display_name (employee_residence r))) <$> csv.
End Enrichment.

(** ** The pandas operations the script uses *)

Module Pandas.

(** A float64 value: [None] is NaN. *)
Abbreviation float := (option Q) (only parsing).
Definition NaN : float := None.

(** [col == v], [col.isin(values)], [m1 & m2] and [df[mask]]. *)
Definition eq_scalar `{EqDecision A} (col : list A) (v : A) : list bool :=
  (λ x, bool_decide (x = v)) <$> col.

Definition isin `{EqDecision A} (col values : list A) : list bool :=
  (λ x, bool_decide (x ∈ values)) <$> col.

Definition mask_and (m1 m2 : list bool) : list bool := zip_with andb m1 m2.

Fixpoint boolean_index {A} (df : list A) (mask : list bool) : list A :=
  match df, mask with
  | r :: df', b :: mask' =>
      if b then r :: boolean_index df' mask' else boolean_index df' mask'
  | _, _ => []
  end.

(** [col.unique()]: the distinct values in order of first appearance. *)
Fixpoint unique `{EqDecision A} (col : list A) : list A :=
  match col with
  | [] => []
  | x :: col' => x :: filter (λ y, y ≠ x) (unique col')
  end.

(** [a[idx]] for an index array [idx] (positions out of range do not occur
    for the index arrays built below and are skipped). *)
Definition take_positions {A} (a : list A) (idx : list nat) : list A :=
  omap (λ i, a !! i) idx.

(** [df.iloc[i]] for [i >= 0]: "single positional indexer is
    out-of-bounds" past the end. *)
Definition iloc {A} (df : list A) (i : nat) : pyresult A :=
  match df !! i with
  | Some r => Ok r
  | None => Raise IndexError
  end.

(** [df.head(n)] *)
Definition head {A} (n : nat) (df : list A) : list A := take n df.

(** *** Median of a group ([median_linear] of pandas' group-by kernel) *)

Definition kth_smallest (a : list Z) (k : nat) : Z :=
  nth k (merge_sort Z.le a) 0.

Definition median (a : list Z) : float :=
  let n := length a in
  if decide (n = 0%nat) then NaN
  else if Nat.odd n then Some (inject_Z (kth_smallest a (n / 2)))
  else Some (Qred ((inject_Z (kth_smallest a (n / 2))
                    + inject_Z (kth_smallest a (n / 2 - 1))) / 2)).

(** *** Group-by

    [df.groupby(key)] with the default [sort=True]: one group per distinct
    key, groups in ascending key order, rows of a group in row order. *)
Section GroupBy.
Context {K : Type} `{EqDecision K} (le : relation K) `{!RelDecision le}.

Definition group_keys (key : Row → K) (df : list Row) : list K :=
  merge_sort le (unique (key <$> df)).

Definition groupby (key : Row → K) (df : list Row) : list (K * list Row) :=
  (λ k, (k, filter (λ r, key r = k) df)) <$> group_keys key df.

(** [grouped["salary_in_usd"].median()]: a Series indexed by the key. *)
Definition salary_median (g : list (K * list Row)) : list (K * float) :=
  (λ kg : K * list Row,
     (kg.1, median ((λ r : Row, salary_in_usd r) <$> kg.2))) <$> g.
End GroupBy.

(** *** Sorting a Series by value *)

(** The value at position [i] of a float array. *)
Definition at_pos (v : list Q) (i : nat) : Q := nth i v 0%Q.

(** numpy's [argsort(kind="quicksort")], the default kind of
    [sort_values]: the result is a permutation of the positions that puts
    the values in ascending order. Which permutation it is when values
    repeat is not part of the contract. *)
Class SortKernel : Type := {
  argsort : list Q → list nat;
  argsort_perm : ∀ v, argsort v ≡ₚ seq 0 (length v);
  argsort_sorted : ∀ v, Sorted Qle (at_pos v <$> argsort v)
}.

(** A kernel is order-preserving (stable) when equal values keep their
    relative position: its result is ordered by value and, among equal
    values, by position. *)
Definition by_value_then_position (v : list Q) (i j : nat) : Prop :=
  (at_pos v i < at_pos v j)%Q
  ∨ (at_pos v i == at_pos v j)%Q ∧ (i < j)%nat.

Definition StableKernel (K : SortKernel) : Prop :=
  ∀ v, StronglySorted (by_value_then_position v) (argsort v).

Section SortValues.
Context {kernel : SortKernel}.

(** [nargsort(items, kind, ascending, na_position="last")] *)
Definition nargsort (items : list float) (ascending : bool) : list nat :=
  let idx := seq 0 (length items) in
  let is_nan i := bool_decide (items !! i ≫= id = None) in
  let non_nans := omap id items in
  let non_nan_idx := filter (λ i, is_nan i = false) idx in
  let nan_idx := filter (λ i, is_nan i = true) idx in
  let non_nans := if ascending then non_nans else reverse non_nans in
  let non_nan_idx := if ascending then non_nan_idx else reverse non_nan_idx in
  let indexer := take_positions non_nan_idx (argsort non_nans) in
  let indexer := if ascending then indexer else reverse indexer in
  indexer ++ nan_idx.

(** [s.sort_values(ascending=...)] on a Series given with its index. *)
Definition sort_values {K} (s : list (K * float)) (ascending : bool)
  : list (K * float) :=
  take_positions s (nargsort (snd <$> s) ascending).
End SortValues.

End Pandas.
Import Pandas.

(** ** The Streamlit page *)

Module Streamlit.

(** What the script puts on the page, with the data each element shows
    (static headings are left out). *)
Inductive Element : Type :=
| LineChart (points : list (Z * float * option string))
| JobBarChart (bars : list (string * float * string))
| Card (title amount : string)
| CountryBarChart (bars : list (string * float)).

(** A script step: it may append to the page and it may raise; what was
    rendered before an exception stays on the page. *)
Definition App (A : Type) : Type := list Element → pyresult A * list Element.

Global Instance App_ret : MRet App := λ A a page, (Ok a, page).
Global Instance App_bind : MBind App := λ A B f m page,
  match m page with
  | (Ok a, page') => f a page'
  | (Raise e, page') => (Raise e, page')
  end.

Definition lift {A} (m : pyresult A) : App A := λ page, (m, page).

(** [st.plotly_chart(fig)] and [st.markdown(html)] *)
Definition render (e : Element) : App unit := λ page, (Ok (), page ++ [e]).

Definition run {A} (script : App A) : pyresult A * list Element := script [].

End Streamlit.
Import Streamlit.

(** ** The script *)

(** [exp_map]: legend labels of the experience codes. *)
Definition exp_map : gmap string string :=
  list_to_map [("EN", "Entry-level"); ("MI", "Mid-level");
               ("SE", "Senior-level"); ("EX", "Executive-level")].

(** What the three sidebar widgets return. *)
Record Selection : Type := mkSelection {
  selected_year : Z;
  selected_country : list string;
  selected_exp : list string
}.

(** The options offered by the widgets; the two multi-selects start with
    all their options selected. *)
Definition years (df : list Row) : list Z :=
  merge_sort Z.le (unique ((λ r : Row, work_year r) <$> df)).
Definition countries (df : list Row) : list string :=
  merge_sort String.le (unique (country_name <$> df)).
Definition experience_levels (df : list Row) : list string :=
  merge_sort String.le (unique ((λ r : Row, experience_level r) <$> df)).

(** [df_f = df[(df["work_year"] == selected_year)
               & df["country_name"].isin(selected_country)
               & df["experience_level"].isin(selected_exp)]] *)
Definition df_f (df : list Row) (sel : Selection) : list Row :=
  boolean_index df
    (mask_and
       (mask_and (eq_scalar ((λ r : Row, work_year r) <$> df) (selected_year sel))
                 (isin (country_name <$> df) (selected_country sel)))
       (isin ((λ r : Row, experience_level r) <$> df) (selected_exp sel))).

(** Ascending order of the pairs [(work_year, experience_level)], as the
    two-column group-by sorts its keys. *)
Definition year_level_le (a b : Z * string) : Prop :=
  a.1 < b.1 ∨ (a.1 = b.1 ∧ String.le a.2 b.2).

Global Instance year_level_le_dec : RelDecision year_level_le.
Proof. intros a b. unfold year_level_le. apply _. Defined.

(** [trend = df[df["experience_level"].isin(selected_exp)]
               .groupby(["work_year", "experience_level"])["salary_in_usd"]
               .median().reset_index()] *)
Definition trend (df : list Row) (sel : Selection)
  : list (Z * string * float) :=
  salary_median
    (groupby year_level_le (λ r : Row, (work_year r, experience_level r))
       (boolean_index df
          (isin ((λ r : Row, experience_level r) <$> df) (selected_exp sel)))).

(** [color=trend["experience_level"].map(exp_map)] *)
Definition trend_points (t : list (Z * string * float))
  : list (Z * float * option string) :=
  (λ row, (row.1.1, row.2, exp_map !! row.1.2)) <$> t.

(** [int(x)] on a float: truncation toward zero; NaN cannot be converted. *)
Definition int_of_float (x : float) : pyresult Z :=
  match x with
  | Some q => Ok (Z.quot (Qnum q) (Z.pos (Qden q)))
  | None => Raise ValueError
  end.

(** [f"{n:,}"]: decimal digits in groups of three, counted from the right. *)
Fixpoint group_thousands (rev_digits : list ascii) : list ascii :=
  match rev_digits with
  | a :: b :: c :: ((_ :: _) as rest) => a :: b :: c :: ","%char :: group_thousands rest
  | _ => rev_digits
  end.

Definition format_thousands (n : Z) : string :=
  let digits := NilZero.string_of_uint (N.to_uint (Z.abs_N n)) in
  let grouped :=
    string_of_list_ascii
      (reverse (group_thousands (reverse (list_ascii_of_string digits)))) in
  if decide (n < 0) then "-" +:+ grouped else grouped.

Section Script.
Context {registry : Registry} {kernel : SortKernel}.

(** [view.groupby(key)["salary_in_usd"].median()
        .sort_values(ascending=False).reset_index()]: the ranking of all
    groups; [reset_index] turns the Series into a two-column frame, the
    same pairs here. *)
Definition ranked (key : Row → string) (view : list Row)
  : list (string * float) :=
  sort_values (salary_median (groupby String.le key view)) false.

(** [... .head(n)] *)
Definition top_median (key : Row → string) (n : nat) (view : list Row)
  : list (string * float) :=
  head n (ranked key view).

Definition job_salary (view : list Row) : list (string * float) :=
  top_median job_title 10 view.

Definition country_salary (view : list Row) : list (string * float) :=
  top_median country_name 20 view.

(** [job_salary["color"] = job_salary["job_title"].apply(...)] *)
Definition with_color (top_job : string) (js : list (string * float))
  : list (string * float * string) :=
  (λ row, (row.1, row.2,
           if decide (row.1 = top_job) then "#2E86C1" else "#AED6F1")) <$> js.

(** The script from the enrichment on: [csv] is what [load_data()]
    returned and [sel] what the three widgets returned. *)
Definition dashboard (csv : list SalaryRecord) (sel : Selection) : App unit :=
  df ← lift (enrich csv);
  let view := df_f df sel in
  render (LineChart (trend_points (trend df sel)));;
  let js := job_salary view in
  top ← lift (iloc js 0);
  let top_job := top.1 in
  let top_salary := top.2 in
  render (JobBarChart (with_color top_job js));;
  amount ← lift (int_of_float top_salary);
  render (Card top_job ("$" +:+ format_thousands amount));;
  render (CountryBarChart (country_salary view)).
End Script.

(** ** Notions used to state the properties *)

(** A registry of ISO 3166 shape: the lookup answers only two-letter codes
    and every display name is longer than a code (the shortest ISO names
    have four letters). *)
Definition IsoShaped (R : Registry) : Prop :=
  ∀ code c, countries_get code = Ok (Some c) →
    String.length code = 2%nat ∧ (2 < String.length (name c))%nat.

(** The three conjuncts of the filter, as a predicate on rows. *)
Definition selected (sel : Selection) (r : Row) : Prop :=
  work_year r = selected_year sel
  ∧ country_name r ∈ selected_country sel
  ∧ experience_level r ∈ selected_exp sel.

Global Instance selected_dec sel r : Decision (selected sel r).
Proof. unfold selected. apply _. Defined.

(** The median in the words of the specification: arrange the values in
    ascending order; an odd count yields the middle value, an even count
    the average of the two central values. *)
Definition is_statistical_median (values : list Z) (m : Q) : Prop :=
  ∃ sorted : list Z,
    sorted ≡ₚ values ∧ Sorted Z.le sorted ∧
    let n := length values in
    if Nat.even n then
      ∃ lo hi, sorted !! (n / 2 - 1)%nat = Some lo
               ∧ sorted !! (n / 2)%nat = Some hi
               ∧ (m == (inject_Z lo + inject_Z hi) / 2)%Q
    else
      ∃ mid, sorted !! (n / 2)%nat = Some mid ∧ (m == inject_Z mid)%Q.

(** The tie rule of the specification: rows of the aggregate with the same
    median stand in the order in which their keys first appear in the
    view. *)
Definition ties_in_encounter_order (key : Row → string) (view : list Row)
    (out : list (string * float)) : Prop :=
  ∀ (i j : nat) (k1 k2 : string) (m : float),
    (i < j)%nat → out !! i = Some (k1, m) → out !! j = Some (k2, m) →
    ∃ i' j' : nat, (i' < j')%nat
      ∧ unique (key <$> view) !! i' = Some k1
      ∧ unique (key <$> view) !! j' = Some k2.

(** What holds instead: an earlier row has a greater median than a later
    one, or the same median and the smaller key. *)
Definition ranked_before (x y : string * float) : Prop :=
  ∃ a b : Q, x.2 = Some a ∧ y.2 = Some b
    ∧ ((b < a)%Q ∨ (a == b)%Q ∧ String.le x.1 y.1 ∧ x.1 ≠ y.1).

(** ** numpy's sort kernel on short arrays

    The default kind sorts an array of at most 17 elements by straight
    insertion: each position in turn is moved left past the values that
    are greater than its own. [lt] is the comparison of the loop; with the
    strict [Qlt_bool] of numpy equal values are never passed. *)

Definition Qlt_bool (x y : Q) : bool := negb (Qle_bool y x).

Fixpoint insert_back (lt : Q → Q → bool) (v : list Q) (vi : nat)
    (sorted_rev : list nat) : list nat :=
  match sorted_rev with
  | [] => [vi]
  | k :: rest =>
      if lt (at_pos v vi) (at_pos v k) then k :: insert_back lt v vi rest
      else vi :: k :: rest
  end.

Definition insertion_argsort (lt : Q → Q → bool) (v : list Q) : list nat :=
  reverse (foldl (λ acc i, insert_back lt v i acc) [] (seq 0 (length v))).

(** ** Sample data *)

(** A few entries of the ISO 3166 table, looked up like the registry. *)
Definition iso_sample : list Country :=
  [mkCountry "US" "United States"; mkCountry "DE" "Germany";
   mkCountry "IN" "India"; mkCountry "TD" "Chad"].

Definition sample_registry : Registry := λ code,
  Ok (snd <$> list_find (λ c, alpha_2 c = code) iso_sample).

(** The scenario table of the specification, with one salary raised by one
    so that the top median is not an integer. *)
Definition scenario_csv : list SalaryRecord :=
  [mkRecord 2023 "SE" "US" "Data Scientist" 150000;
   mkRecord 2023 "SE" "US" "Data Scientist" 170001;
   mkRecord 2023 "EN" "DE" "Analyst" 50000].

Definition scenario_sel : Selection :=
  mkSelection 2023 ["United States"; "Germany"] ["SE"; "EN"].

(** Two job titles with the same median, the later in the alphabet first
    in the table. *)
Definition tie_csv : list SalaryRecord :=
  [mkRecord 2023 "SE" "US" "Zoologist" 100000;
   mkRecord 2023 "SE" "US" "Analyst" 100000].

Definition tie_sel : Selection :=
  mkSelection 2023 ["United States"] ["SE"].

Definition tie_view : list Row :=
  df_f (enriched (registry := sample_registry) tie_csv) tie_sel.

(** * Properties *)

(** ** The country enricher *)

Section EnrichmentFacts.
Context {registry : Registry}.

Lemma code_to_country_display (code : string) :
  code_to_country code = Ok (display_name code).
Proof.
  unfold code_to_country, display_name.
  by destruct (countries_get code) as [[c|]|e].
Qed.

Lemma apply_Ok {A B} (f : A → pyresult B) (g : A → B) (col : list A) :
  (∀ x, f x = Ok (g x)) → apply f col = Ok (g <$> col).
Proof.
  intros Hf. induction col as [|x col IH]; [done|].
  cbn [apply]. rewrite Hf, IH. reflexivity.
Qed.

Lemma enrich_Ok (csv : list SalaryRecord) : enrich csv = Ok (enriched csv).
Proof.
  unfold enrich, enriched.
  rewrite (apply_Ok _ display_name) by apply code_to_country_display.
  cbn. f_equal. induction csv as [|r csv IH]; [done|].
  cbn. by rewrite IH.
Qed.

Lemma display_name_miss (code : string) :
  (∀ c, countries_get code ≠ Ok (Some c)) → display_name code = code.
Proof.
  unfold display_name. intros Hmiss.
  destruct (countries_get code) as [[c|]|e]; [|done..].
  by destruct (Hmiss c).
Qed.
End EnrichmentFacts.

(** C2. [code_to_country] is total on strings: it never raises; on a code
    the registry holds it returns the entry's display name, and on any
    other input (the lookup answers [None] or raises) it returns the input
    itself. *)
Theorem code_to_country_total (registry : Registry) (code : string) :
  ∃ s, code_to_country code = Ok s
       ∧ match countries_get code with
         | Ok (Some c) => s = name c
         | Ok None | Raise _ => s = code
         end.
Proof.
  exists (display_name code). split; [apply code_to_country_display|].
  unfold display_name. by destruct (countries_get code) as [[c|]|e].
Qed.

Lemma display_name_idem (registry : Registry) (code : string) :
  IsoShaped registry → display_name (display_name code) = display_name code.
Proof.
  intros Hiso. unfold display_name at 2 3.
  destruct (countries_get code) as [[c|]|e] eqn:Hcode.
  - apply display_name_miss. intros c' Hget.
    apply Hiso in Hget as [Hlen _]. apply Hiso in Hcode as [_ Hname]. lia.
  - apply display_name_miss. intros c'. by rewrite Hcode.
  - apply display_name_miss. intros c'. by rewrite Hcode.
Qed.

(** C9. The enrichment succeeds and only adds [country_name]: row by row
    the five source fields are those of the loaded record, the new column
    is the enricher's value for [employee_residence], and mapping an
    enriched value again returns it unchanged (for a registry of ISO
    shape, whose display names are no codes). *)
Theorem enrich_only_adds_country_name (registry : Registry)
    (Hiso : IsoShaped registry) (csv : list SalaryRecord) :
  ∃ df, enrich csv = Ok df
    ∧ source <$> df = csv
    ∧ Forall2 (λ (raw : SalaryRecord) (r : Row),
        work_year r = work_year raw
        ∧ experience_level r = experience_level raw
        ∧ employee_residence r = employee_residence raw
        ∧ job_title r = job_title raw
        ∧ salary_in_usd r = salary_in_usd raw
        ∧ code_to_country (employee_residence raw) = Ok (country_name r)
        ∧ code_to_country (country_name r) = Ok (country_name r)) csv df.
Proof.
  eexists. split; [apply enrich_Ok|]. unfold enriched. split.
  - rewrite <- list_fmap_compose. by rewrite list_fmap_id.
  - apply Forall2_fmap_r, Forall_Forall2_diag, Forall_forall.
    intros raw _. cbn. repeat split; try apply code_to_country_display.
    rewrite code_to_country_display. f_equal.
    by apply display_name_idem.
Qed.

Lemma sample_registry_IsoShaped : IsoShaped sample_registry.
Proof.
  intros code c. unfold countries_get, sample_registry, iso_sample.
  cbn. intros Hget. repeat case_decide; simplify_eq/=; split; cbn; lia.
Qed.

Lemma enrich_only_adds_country_name_witness :
  ∃ df, enrich (registry := sample_registry) scenario_csv = Ok df
    ∧ source <$> df = scenario_csv
    ∧ Forall2 (λ (raw : SalaryRecord) (r : Row),
        work_year r = work_year raw
        ∧ experience_level r = experience_level raw
        ∧ employee_residence r = employee_residence raw
        ∧ job_title r = job_title raw
        ∧ salary_in_usd r = salary_in_usd raw
        ∧ code_to_country (registry := sample_registry)
            (employee_residence raw) = Ok (country_name r)
        ∧ code_to_country (registry := sample_registry)
            (country_name r) = Ok (country_name r))
        scenario_csv df.
Proof.
  exact (enrich_only_adds_country_name sample_registry
           sample_registry_IsoShaped scenario_csv).
Defined.

(** ** The filter engine *)

Section Masks.
Context {A : Type}.

Lemma boolean_index_decide (P : A → Prop) `{∀ x, Decision (P x)}
    (df : list A) :
  boolean_index df ((λ r, bool_decide (P r)) <$> df) = filter P df.
Proof.
  induction df as [|r df IH]; [done|].
  cbn [fmap list_fmap boolean_index]. rewrite filter_cons.
  fold (fmap (M := list) (λ r, bool_decide (P r)) df).
  rewrite IH. destruct (decide (P r)) as [HP|HP].
  - by rewrite bool_decide_true.
  - by rewrite bool_decide_false.
Qed.

Lemma mask_and_fmap (p q : A → bool) (df : list A) :
  mask_and (p <$> df) (q <$> df) = (λ r, p r && q r) <$> df.
Proof.
  unfold mask_and. induction df as [|r df IH]; [done|].
  cbn. f_equal. apply IH.
Qed.

Lemma eq_scalar_fmap `{EqDecision B} (f : A → B) (v : B) (df : list A) :
  eq_scalar (f <$> df) v = (λ r, bool_decide (f r = v)) <$> df.
Proof. unfold eq_scalar. by rewrite <- list_fmap_compose. Qed.

Lemma isin_fmap `{EqDecision B} (f : A → B) (values : list B) (df : list A) :
  isin (f <$> df) values = (λ r, bool_decide (f r ∈ values)) <$> df.
Proof. unfold isin. by rewrite <- list_fmap_compose. Qed.

Lemma filter_ext_in (P Q : A → Prop)
    `{∀ x, Decision (P x)} `{∀ x, Decision (Q x)} (l : list A) :
  (∀ x, x ∈ l → (P x ↔ Q x)) → filter P l = filter Q l.
Proof.
  induction l as [|x l IH]; intros Hext; [done|].
  rewrite !filter_cons.
  rewrite IH by (intros y Hy; apply Hext; by right).
  destruct (decide (P x)) as [HP|HP], (decide (Q x)) as [HQ|HQ];
    try done; exfalso; apply (Hext x) in HP || apply (Hext x) in HQ;
    try done; by left.
Qed.
End Masks.

Lemma df_f_filter (df : list Row) (sel : Selection) :
  df_f df sel = filter (selected sel) df.
Proof.
  unfold df_f.
  rewrite (eq_scalar_fmap (λ r : Row, work_year r)).
  rewrite (isin_fmap country_name).
  rewrite (isin_fmap (λ r : Row, experience_level r)).
  rewrite !mask_and_fmap.
  rewrite <- (boolean_index_decide (selected sel)).
  f_equal. apply list_fmap_ext. intros _ r _. unfold selected.
  rewrite <- !bool_decide_and. apply bool_decide_ext. tauto.
Qed.

(** C3. The filtered view is exactly the rows of the enriched table that
    pass all three predicates: it is the table with the other rows left
    out (order and repetitions kept), so a row is in the view if and only
    if it is in the table, its year is the selected year, its country name
    is among the selected countries and its level among the selected
    levels. *)
Theorem df_f_is_the_conjunction (df : list Row) (sel : Selection) :
  df_f df sel
    = filter (λ r : Row, work_year r = selected_year sel
                         ∧ country_name r ∈ selected_country sel
                         ∧ experience_level r ∈ selected_exp sel) df
  ∧ ∀ r : Row, r ∈ df_f df sel ↔
      r ∈ df ∧ work_year r = selected_year sel
      ∧ country_name r ∈ selected_country sel
      ∧ experience_level r ∈ selected_exp sel.
Proof.
  split; [apply df_f_filter|].
  intros r. rewrite df_f_filter, list_elem_of_filter. unfold selected. tauto.
Qed.

(** ** Distinct values and widget options *)

Section Unique.
Context `{EqDecision A}.
Implicit Types (x : A) (col : list A).

Lemma elem_of_unique x col : x ∈ unique col ↔ x ∈ col.
Proof.
  induction col as [|y col IH]; [done|].
  cbn [unique]. rewrite !elem_of_cons, list_elem_of_filter, IH.
  destruct (decide (x = y)); tauto.
Qed.

Lemma NoDup_unique col : NoDup (unique col).
Proof.
  induction col as [|y col IH]; cbn [unique]; [constructor|].
  constructor; [|by apply NoDup_filter].
  rewrite list_elem_of_filter. by intros [Hne _].
Qed.

Lemma elem_of_merge_sort (R : relation A) `{!RelDecision R} x col :
  x ∈ merge_sort R col ↔ x ∈ col.
Proof. by rewrite merge_sort_Permutation. Qed.
End Unique.

Lemma elem_of_countries (df : list Row) (r : Row) :
  r ∈ df → country_name r ∈ countries df.
Proof.
  intros Hr. unfold countries.
  rewrite elem_of_merge_sort, elem_of_unique. by apply list_elem_of_fmap_2.
Qed.

Lemma elem_of_experience_levels (df : list Row) (r : Row) :
  r ∈ df → experience_level r ∈ experience_levels df.
Proof.
  intros Hr. unfold experience_levels.
  rewrite elem_of_merge_sort, elem_of_unique.
  by apply (list_elem_of_fmap_2 (λ r : Row, experience_level r)).
Qed.

(** C8. With the country multi-select at its default (every country name
    of the table), the country conjunct is always true: the view for year
    [y] is the one the year and level conjuncts give alone, and with the
    level multi-select at its default as well it is just the rows of
    year [y]. *)
Theorem full_country_set_is_identity (df : list Row) (y : Z)
    (levels : list string) :
  df_f df (mkSelection y (countries df) levels)
    = filter (λ r : Row, work_year r = y ∧ experience_level r ∈ levels) df
  ∧ df_f df (mkSelection y (countries df) (experience_levels df))
    = filter (λ r : Row, work_year r = y) df.
Proof.
  split; rewrite df_f_filter; apply filter_ext_in; intros r Hr;
    unfold selected; cbn.
  - pose proof (elem_of_countries df r Hr). tauto.
  - pose proof (elem_of_countries df r Hr).
    pose proof (elem_of_experience_levels df r Hr). tauto.
Qed.


(** ** The median *)

Section MedianFacts.
Implicit Types (a : list Z) (k : nat).

Lemma kth_smallest_lookup a k :
  (k < length a)%nat → merge_sort Z.le a !! k = Some (kth_smallest a k).
Proof.
  intros Hk. unfold kth_smallest.
  destruct (nth_lookup_or_length (merge_sort Z.le a) k 0) as [Hnth|Hlen];
    [done|].
  rewrite (Permutation_length (merge_sort_Permutation Z.le a)) in Hlen. lia.
Qed.

Lemma half_lt_length a : a ≠ [] → (length a / 2 < length a)%nat.
Proof.
  intros Ha. apply Nat.div_lt; [|lia].
  destruct a; [done|cbn; lia].
Qed.

Lemma sorted_permutation_unique (s1 s2 : list Z) :
  Sorted Z.le s1 → Sorted Z.le s2 → s1 ≡ₚ s2 → s1 = s2.
Proof. apply (Sorted_unique Z.le). Qed.

Lemma median_statistical a :
  a ≠ [] → ∃ m, median a = Some m ∧ is_statistical_median a m.
Proof.
  intros Ha. unfold median, is_statistical_median.
  assert (length a ≠ 0%nat) as Hn by (by destruct a).
  pose proof (half_lt_length a Ha) as Hhalf.
  rewrite decide_False by done.
  rewrite <- Nat.negb_odd.
  destruct (Nat.odd (length a)) eqn:Hodd; cbn [negb]; eexists; (split; [done|]);
    exists (merge_sort Z.le a);
    (split; [apply merge_sort_Permutation|]);
    (split; [apply (Sorted_merge_sort Z.le)|]).
  - eexists. split; [by apply kth_smallest_lookup|]. reflexivity.
  - do 2 eexists.
    split; [apply kth_smallest_lookup; lia|].
    split; [by apply kth_smallest_lookup|].
    rewrite Qred_correct. by rewrite Qplus_comm.
Qed.

Lemma statistical_median_unique a (m1 m2 : Q) :
  is_statistical_median a m1 → is_statistical_median a m2 → (m1 == m2)%Q.
Proof.
  intros (s1 & Hp1 & Hs1 & H1) (s2 & Hp2 & Hs2 & H2).
  assert (s1 = s2) as ->.
  { apply sorted_permutation_unique; [done..|]. by rewrite Hp1, Hp2. }
  cbn zeta in *. destruct (Nat.even (length a)).
  - destruct H1 as (lo1 & hi1 & Hlo1 & Hhi1 & ->).
    destruct H2 as (lo2 & hi2 & Hlo2 & Hhi2 & ->).
    by simplify_eq.
  - destruct H1 as (mid1 & Hmid1 & ->). destruct H2 as (mid2 & Hmid2 & ->).
    by simplify_eq.
Qed.
End MedianFacts.

(** ** Group-by and the per-group median *)

Global Instance year_level_le_total : Total year_level_le.
Proof.
  intros [y1 l1] [y2 l2]. unfold year_level_le. cbn.
  destruct (Z.lt_trichotomy y1 y2) as [Hlt|[->|Hgt]]; [tauto| |tauto].
  destruct (total String.le l1 l2); tauto.
Qed.

Global Instance year_level_le_po : PartialOrder year_level_le.
Proof.
  split; [split|].
  - intros [y l]. right. by split.
  - intros [y1 l1] [y2 l2] [y3 l3]. unfold year_level_le. cbn.
    intros [H12|[-> H12]] [H23|[-> H23]]; [left; lia| by left | by left |].
    right. split; [done|]. by etrans.
  - intros [y1 l1] [y2 l2]. unfold year_level_le. cbn.
    intros [H12|[Heq H12]] [H21|[Heq' H21]]; try lia.
    subst y2. f_equal. by apply (anti_symm String.le).
Qed.

Section GroupByFacts.
Context {K : Type} `{EqDecision K} (le : relation K) `{!RelDecision le}.
Implicit Types (key : Row → K) (df : list Row) (k : K).

Lemma elem_of_group_keys key df k :
  k ∈ group_keys le key df ↔ ∃ r, r ∈ df ∧ key r = k.
Proof.
  unfold group_keys. rewrite elem_of_merge_sort, elem_of_unique.
  rewrite list_elem_of_fmap. split.
  - intros (r & -> & Hr). by exists r.
  - intros (r & Hr & <-). by exists r.
Qed.

Lemma NoDup_group_keys key df : NoDup (group_keys le key df).
Proof.
  unfold group_keys. rewrite merge_sort_Permutation. apply NoDup_unique.
Qed.

Lemma Sorted_group_keys `{!Total le} key df : Sorted le (group_keys le key df).
Proof. apply (Sorted_merge_sort le). Qed.

Lemma group_keys_Permutation key df :
  group_keys le key df ≡ₚ unique (key <$> df).
Proof. apply merge_sort_Permutation. Qed.

Lemma salary_median_keys key df :
  fst <$> salary_median (groupby le key df) = group_keys le key df.
Proof.
  unfold salary_median, groupby. rewrite <- !list_fmap_compose.
  apply list_fmap_id.
Qed.

Lemma elem_of_salary_median key df k (v : float) :
  (k, v) ∈ salary_median (groupby le key df) ↔
    (∃ r, r ∈ df ∧ key r = k)
    ∧ v = median ((λ r : Row, salary_in_usd r) <$> filter (λ r, key r = k) df).
Proof.
  unfold salary_median, groupby. rewrite <- list_fmap_compose.
  rewrite list_elem_of_fmap. setoid_rewrite elem_of_group_keys. cbn.
  split.
  - intros (k' & Heq & Hk'). injection Heq as <- ->. by split.
  - intros [Hk ->]. by exists k.
Qed.

Lemma group_nonempty key df k :
  (∃ r, r ∈ df ∧ key r = k) →
  (λ r : Row, salary_in_usd r) <$> filter (λ r, key r = k) df ≠ [].
Proof.
  intros (r & Hr & Hk) Hnil. apply fmap_nil_inv in Hnil.
  by destruct (filter_nil_not_elem_of _ _ r Hnil Hk).
Qed.

Lemma salary_median_values key df :
  ∃ vs : list Q, snd <$> salary_median (groupby le key df) = Some <$> vs.
Proof.
  unfold salary_median, groupby. rewrite <- !list_fmap_compose.
  assert (∀ k, k ∈ group_keys le key df → ∃ r, r ∈ df ∧ key r = k) as Hkeys
    by (intros k; apply elem_of_group_keys).
  induction (group_keys le key df) as [|k ks IH].
  - by exists [].
  - destruct IH as [vs Hvs]; [intros k' Hk'; apply Hkeys; by right|].
    destruct (median_statistical _ (group_nonempty key df k (Hkeys k ltac:(by left))))
      as (m & Hm & _).
    exists (m :: vs). cbn. by rewrite Hm, <- Hvs.
Qed.
End GroupByFacts.

(** ** The trend aggregate *)

Lemma trend_unfold (df : list Row) (sel : Selection) :
  trend df sel =
    salary_median
      (groupby year_level_le (λ r : Row, (work_year r, experience_level r))
         (filter (λ r : Row, experience_level r ∈ selected_exp sel) df)).
Proof.
  unfold trend. rewrite (isin_fmap (λ r : Row, experience_level r)).
  by rewrite (boolean_index_decide
                (λ r : Row, experience_level r ∈ selected_exp sel)).
Qed.

Lemma trend_key_iff (df : list Row) (sel : Selection) (y : Z) (l : string) :
  (y, l) ∈ fst <$> trend df sel ↔
    l ∈ selected_exp sel
    ∧ ∃ r : Row, r ∈ df ∧ work_year r = y ∧ experience_level r = l.
Proof.
  rewrite trend_unfold, salary_median_keys, elem_of_group_keys. split.
  - intros (r & [Hsel Hr]%list_elem_of_filter & [= <- <-]). eauto.
  - intros (Hl & r & Hr & <- & <-). exists r.
    by rewrite list_elem_of_filter.
Qed.

Lemma trend_value (df : list Row) (sel : Selection) (y : Z) (l : string)
    (v : float) :
  (y, l, v) ∈ trend df sel →
  v = median ((λ r : Row, salary_in_usd r) <$>
                filter (λ r : Row, work_year r = y ∧ experience_level r = l) df).
Proof.
  intros Hin.
  assert (l ∈ selected_exp sel) as Hl.
  { apply (list_elem_of_fmap_2 fst) in Hin. by apply trend_key_iff in Hin as [? _]. }
  rewrite trend_unfold in Hin. apply elem_of_salary_median in Hin as [_ ->].
  do 2 f_equal. rewrite list_filter_filter. apply filter_ext_in.
  intros r _. split.
  - by intros [[= <- <-] _].
  - intros [<- <-]. by split.
Qed.

Lemma trend_value_statistical (df : list Row) (sel : Selection) (y : Z)
    (l : string) (v : float) :
  (y, l, v) ∈ trend df sel →
  ∃ m, v = Some m
       ∧ is_statistical_median
           ((λ r : Row, salary_in_usd r)
              <$> filter (λ r : Row, work_year r = y
                                     ∧ experience_level r = l) df) m.
Proof.
  intros Hin. rewrite (trend_value df sel y l v Hin).
  apply (list_elem_of_fmap_2 fst), trend_key_iff in Hin
    as (_ & r & Hr & Hy & Hl).
  apply median_statistical. intros Hnil%fmap_nil_inv.
  by destruct (filter_nil_not_elem_of _ _ r Hnil).
Qed.


(** ** Index arrays *)

Section TakePositions.
Context {A : Type}.
Implicit Types (a : list A) (p : list nat).

Lemma take_positions_seq_app (pre a : list A) :
  take_positions (pre ++ a) (seq (length pre) (length a)) = a.
Proof.
  revert pre. induction a as [|x a IH]; intros pre; [done|].
  cbn [length seq]. unfold take_positions. cbn [omap list_omap].
  rewrite list_lookup_middle by done.
  f_equal. specialize (IH (pre ++ [x])).
  rewrite length_app, Nat.add_1_r, <- (assoc_L (++)) in IH. apply IH.
Qed.

Lemma take_positions_seq a : take_positions a (seq 0 (length a)) = a.
Proof. apply (take_positions_seq_app []). Qed.

Lemma take_positions_Permutation a p :
  p ≡ₚ seq 0 (length a) → take_positions a p ≡ₚ a.
Proof.
  intros Hp. rewrite <- (take_positions_seq a) at 2.
  unfold take_positions. by rewrite Hp.
Qed.

Lemma take_positions_fmap {B} (f : A → B) a p :
  f <$> take_positions a p = take_positions (f <$> a) p.
Proof.
  unfold take_positions. induction p as [|i p IH]; [done|].
  cbn [omap list_omap]. rewrite list_lookup_fmap.
  destruct (a !! i); cbn; by rewrite IH.
Qed.

Lemma take_positions_reverse a p :
  take_positions a (reverse p) = reverse (take_positions a p).
Proof.
  unfold take_positions. induction p as [|i p IH]; [done|].
  rewrite reverse_cons, omap_app, IH. cbn [omap list_omap].
  destruct (a !! i); [by rewrite reverse_cons|by rewrite app_nil_r].
Qed.

Lemma positions_in_range p n : p ≡ₚ seq 0 n → Forall (λ i, i < n)%nat p.
Proof.
  intros ->. apply Forall_seq. intros i Hi. lia.
Qed.

Lemma take_positions_mirror a p :
  Forall (λ i, i < length a)%nat p →
  take_positions a (take_positions (reverse (seq 0 (length a))) p)
    = take_positions (reverse a) p.
Proof.
  unfold take_positions. induction 1 as [|i p Hi _ IH]; [done|].
  cbn [omap list_omap].
  rewrite !reverse_lookup by (by rewrite ?length_seq).
  rewrite length_seq, lookup_seq_lt by lia.
  cbn [omap list_omap]. by rewrite IH.
Qed.

Lemma StronglySorted_take_positions (R : relation nat) (S : relation A) a p :
  Forall (λ i, i < length a)%nat p →
  (∀ i j x y, a !! i = Some x → a !! j = Some y → R i j → S x y) →
  StronglySorted R p → StronglySorted S (take_positions a p).
Proof.
  intros Hp HRS Hsorted. unfold take_positions.
  induction Hsorted as [|i p Hsorted IH Hall]; [constructor|].
  apply Forall_cons in Hp as [Hi Hp]. cbn [omap list_omap].
  destruct (lookup_lt_is_Some_2 a i Hi) as [x Hx]. rewrite Hx.
  constructor; [by apply IH|].
  apply Forall_forall. intros y (j & Hj & Hy)%list_elem_of_omap.
  rewrite Forall_forall in Hall. eauto.
Qed.
End TakePositions.

(** ** Sorting by value *)

Lemma filter_all {A} (P : A → Prop) `{∀ x, Decision (P x)} (l : list A) :
  Forall P l → filter P l = l.
Proof.
  induction 1 as [|x l Hx _ IH]; [done|].
  by rewrite filter_cons_True, IH.
Qed.

Lemma filter_none {A} (P : A → Prop) `{∀ x, Decision (P x)} (l : list A) :
  Forall (λ x, ¬ P x) l → filter P l = [].
Proof.
  induction 1 as [|x l Hx _ IH]; [done|].
  by rewrite filter_cons_False, IH.
Qed.

Lemma omap_id_Some {A} (vs : list A) : omap id (Some <$> vs) = vs.
Proof. induction vs as [|v vs IH]; [done|]. cbn. by rewrite IH. Qed.

Lemma take_positions_at_pos (v : list Q) (p : list nat) :
  Forall (λ i, i < length v)%nat p → take_positions v p = at_pos v <$> p.
Proof.
  unfold take_positions, at_pos. induction 1 as [|i p Hi _ IH]; [done|].
  cbn [omap list_omap fmap list_fmap].
  destruct (lookup_lt_is_Some_2 v i Hi) as [x Hx].
  rewrite Hx, (nth_lookup_Some _ _ _ _ Hx). cbn. by rewrite IH.
Qed.

Section SortValuesFacts.
Context {kernel : SortKernel}.

Lemma argsort_in_range (v : list Q) :
  Forall (λ i, i < length v)%nat (argsort v).
Proof. apply positions_in_range, argsort_perm. Qed.

Lemma nargsort_descending_no_nan (vs : list Q) :
  nargsort (Some <$> vs) false
    = reverse (take_positions (reverse (seq 0 (length vs)))
                 (argsort (reverse vs))).
Proof.
  unfold nargsort. cbn zeta. rewrite length_fmap, omap_id_Some.
  assert (∀ i, (i < length vs)%nat →
            bool_decide ((Some <$> vs) !! i ≫= id = None) = false) as Hnan.
  { intros i Hi. apply bool_decide_eq_false. rewrite list_lookup_fmap.
    by destruct (lookup_lt_is_Some_2 vs i Hi) as [x ->]. }
  rewrite filter_all, filter_none, app_nil_r; [done|..];
    apply Forall_seq; intros i Hi; rewrite Hnan by lia; done.
Qed.

(** A descending [sort_values] on a Series without NaN, in one step:
    positions of the mirrored Series, by the kernel, mirrored back. *)
Lemma sort_values_descending {K} (s : list (K * float)) (vs : list Q) :
  snd <$> s = Some <$> vs →
  sort_values s false
    = reverse (take_positions (reverse s) (argsort (reverse vs))).
Proof.
  intros Hvs. unfold sort_values.
  rewrite Hvs, nargsort_descending_no_nan, take_positions_reverse.
  f_equal.
  assert (length vs = length s) as Hlen.
  { by rewrite <- (length_fmap Some vs), <- Hvs, length_fmap. }
  rewrite Hlen. apply take_positions_mirror.
  rewrite <- Hlen, <- (length_reverse vs). apply argsort_in_range.
Qed.

Lemma sort_values_Permutation {K} (s : list (K * float)) (vs : list Q) :
  snd <$> s = Some <$> vs → sort_values s false ≡ₚ s.
Proof.
  intros Hvs. rewrite (sort_values_descending s vs Hvs).
  rewrite reverse_Permutation.
  rewrite take_positions_Permutation; [apply reverse_Permutation|].
  rewrite length_reverse.
  replace (length s) with (length (reverse vs)); [apply argsort_perm|].
  by rewrite length_reverse, <- (length_fmap Some vs), <- Hvs, length_fmap.
Qed.

Lemma sort_values_sorted {K} (s : list (K * float)) (vs : list Q) :
  snd <$> s = Some <$> vs →
  ∃ ms : list Q,
    snd <$> sort_values s false = Some <$> ms ∧ Sorted (flip Qle) ms.
Proof.
  intros Hvs. rewrite (sort_values_descending s vs Hvs).
  exists (reverse (take_positions (reverse vs) (argsort (reverse vs)))).
  split.
  - rewrite fmap_reverse, take_positions_fmap, fmap_reverse, Hvs.
    by rewrite <- fmap_reverse, <- take_positions_fmap, fmap_reverse.
  - apply Sorted_reverse.
    rewrite take_positions_at_pos by apply argsort_in_range.
    apply argsort_sorted.
Qed.
End SortValuesFacts.

(** ** Straight insertion meets the kernel contract *)

Lemma StronglySorted_reverse {A} (R : relation A) (l : list A) :
  StronglySorted (flip R) l → StronglySorted R (reverse l).
Proof.
  induction 1 as [|x l _ IH Hall]; [constructor|].
  rewrite reverse_cons. apply StronglySorted_app_2; [|done|repeat constructor].
  intros y x' Hy ->%list_elem_of_singleton.
  rewrite Forall_forall in Hall. apply Hall. by apply elem_of_reverse.
Qed.

Section Insertion.
Context (lt : Q → Q → bool) (v : list Q) (Rel : relation nat).
Hypothesis Rel_trans : Transitive Rel.
Hypothesis lt_true : ∀ i k,
  (k < i)%nat → lt (at_pos v i) (at_pos v k) = true → Rel i k.
Hypothesis lt_false : ∀ i k,
  (k < i)%nat → lt (at_pos v i) (at_pos v k) = false → Rel k i.

Lemma insert_back_Permutation (i : nat) (acc : list nat) :
  insert_back lt v i acc ≡ₚ i :: acc.
Proof.
  induction acc as [|k acc IH]; [done|].
  cbn [insert_back]. destruct (lt _ _); [|done].
  rewrite IH. apply Permutation_swap.
Qed.

Lemma insert_back_sorted (i : nat) (acc : list nat) :
  Forall (λ k, k < i)%nat acc →
  StronglySorted (flip Rel) acc →
  StronglySorted (flip Rel) (insert_back lt v i acc).
Proof.
  intros Hlt Hsorted.
  induction Hsorted as [|k acc Hsorted IH Hall]; [repeat constructor|].
  apply Forall_cons in Hlt as [Hk Hlt]. cbn [insert_back].
  destruct (lt _ _) eqn:Hcmp.
  - constructor; [by apply IH|].
    rewrite insert_back_Permutation. constructor; [|done].
    by apply lt_true.
  - constructor; [by constructor|].
    pose proof (lt_false i k Hk Hcmp) as Hki.
    constructor; [done|].
    eapply Forall_impl; [exact Hall|]. intros y Hy. unfold flip in *.
    by etrans.
Qed.

Lemma insertion_loop (m k : nat) (acc : list nat) :
  acc ≡ₚ seq 0 k → StronglySorted (flip Rel) acc →
  let acc' := foldl (λ acc i, insert_back lt v i acc) acc (seq k m) in
  acc' ≡ₚ seq 0 (k + m) ∧ StronglySorted (flip Rel) acc'.
Proof.
  revert k acc. induction m as [|m IH]; intros k acc Hperm Hsorted.
  { cbn. by rewrite Nat.add_0_r. }
  cbn [seq foldl]. rewrite <- Nat.add_succ_comm. apply IH.
  - rewrite insert_back_Permutation, Hperm, seq_S. cbn.
    by rewrite Permutation_cons_append.
  - apply insert_back_sorted; [|done].
    rewrite Hperm. apply Forall_seq. intros; lia.
Qed.

Lemma insertion_argsort_Permutation :
  insertion_argsort lt v ≡ₚ seq 0 (length v).
Proof.
  unfold insertion_argsort. rewrite reverse_Permutation.
  by apply (insertion_loop (length v) 0 []); [|constructor].
Qed.

Lemma insertion_argsort_sorted :
  StronglySorted Rel (insertion_argsort lt v).
Proof.
  apply StronglySorted_reverse.
  by apply (insertion_loop (length v) 0 []); [|constructor].
Qed.
End Insertion.

Lemma Qlt_bool_true (x y : Q) : Qlt_bool x y = true → (x < y)%Q.
Proof.
  unfold Qlt_bool. intros Hneg%negb_true_iff. apply Qnot_le_lt.
  intros Hle%Qle_bool_iff. congruence.
Qed.

Lemma Qlt_bool_false (x y : Q) : Qlt_bool x y = false → (y <= x)%Q.
Proof.
  unfold Qlt_bool. intros Hneg%negb_false_iff. by apply Qle_bool_iff.
Qed.

Lemma Qle_bool_false (x y : Q) : Qle_bool x y = false → (y <= x)%Q.
Proof.
  intros Hle. apply Qlt_le_weak, Qnot_le_lt.
  intros Hxy%Qle_bool_iff. congruence.
Qed.

Global Instance by_value_then_position_trans v :
  Transitive (by_value_then_position v).
Proof.
  intros i j k [Hij|[Hij Hlt1]] [Hjk|[Hjk Hlt2]]; unfold by_value_then_position.
  - left. by eapply Qlt_trans.
  - left. by rewrite <- Hjk.
  - left. by rewrite Hij.
  - right. split; [by rewrite Hij|lia].
Qed.

Global Instance by_value_trans (v : list Q) :
  Transitive (λ i j : nat, (at_pos v i <= at_pos v j)%Q).
Proof. intros i j k. apply Qle_trans. Qed.

Lemma insertion_argsort_values_sorted (lt : Q → Q → bool) (v : list Q) :
  (∀ x y, lt x y = true → (x <= y)%Q) →
  (∀ x y, lt x y = false → (y <= x)%Q) →
  Sorted Qle (at_pos v <$> insertion_argsort lt v).
Proof.
  intros Htrue Hfalse. apply StronglySorted_Sorted.
  apply (StronglySorted_fmap _ (λ i j, (at_pos v i <= at_pos v j)%Q));
    [done|].
  apply insertion_argsort_sorted; [apply _|intros i k _; apply Htrue
                                  |intros i k _; apply Hfalse].
Qed.

Lemma insertion_argsort_positions (lt : Q → Q → bool) (v : list Q) :
  insertion_argsort lt v ≡ₚ seq 0 (length v).
Proof.
  by apply (insertion_argsort_Permutation lt v (λ _ _, True)).
Qed.

(** numpy's kernel as it runs on short arrays. *)
Definition insertion_kernel : SortKernel := {|
  argsort := insertion_argsort Qlt_bool;
  argsort_perm := insertion_argsort_positions Qlt_bool;
  argsort_sorted v :=
    insertion_argsort_values_sorted Qlt_bool v
      (λ x y H, Qlt_le_weak x y (Qlt_bool_true x y H)) Qlt_bool_false
|}.

(** A kernel within the same contract that passes equal values, so that
    ties come out in the opposite order. *)
Definition tie_reversing_kernel : SortKernel := {|
  argsort := insertion_argsort Qle_bool;
  argsort_perm := insertion_argsort_positions Qle_bool;
  argsort_sorted v :=
    insertion_argsort_values_sorted Qle_bool v
      (λ x y H, proj1 (Qle_bool_iff x y) H) Qle_bool_false
|}.

Lemma insertion_kernel_stable : StableKernel insertion_kernel.
Proof.
  intros v. apply insertion_argsort_sorted; [apply _|..].
  - intros i k _ Hlt%Qlt_bool_true. by left.
  - intros i k Hki Hle%Qlt_bool_false.
    apply Qle_lt_or_eq in Hle as [Hlt|Heq]; [by left|by right].
Qed.

(** ** The top-job and country aggregates *)

Section TopMedianFacts.
Context {kernel : SortKernel}.
Implicit Types (key : Row → string) (view : list Row).

Lemma ranked_Permutation key view :
  ranked key view ≡ₚ salary_median (groupby String.le key view).
Proof.
  destruct (salary_median_values String.le key view) as [vs Hvs].
  by apply (sort_values_Permutation _ vs).
Qed.

Lemma ranked_keys key view : fst <$> ranked key view ≡ₚ unique (key <$> view).
Proof.
  rewrite ranked_Permutation, salary_median_keys.
  apply group_keys_Permutation.
Qed.

Lemma ranked_sorted key view :
  ∃ ms : list Q, snd <$> ranked key view = Some <$> ms ∧ Sorted (flip Qle) ms.
Proof.
  destruct (salary_median_values String.le key view) as [vs Hvs].
  by apply (sort_values_sorted _ vs).
Qed.

Lemma length_ranked key view :
  length (ranked key view) = length (unique (key <$> view)).
Proof. by rewrite <- (length_fmap fst), ranked_keys. Qed.

Lemma elem_of_top_median key n view (k : string) (v : float) :
  (k, v) ∈ top_median key n view →
  ∃ m, v = Some m
       ∧ v = median ((λ r : Row, salary_in_usd r)
                       <$> filter (λ r, key r = k) view)
       ∧ is_statistical_median
           ((λ r : Row, salary_in_usd r) <$> filter (λ r, key r = k) view) m.
Proof.
  unfold top_median, head. intros Hin%(subseteq_take n).
  fold (ranked key view) in Hin. rewrite ranked_Permutation in Hin.
  apply elem_of_salary_median in Hin as [Hk ->].
  destruct (median_statistical _ (group_nonempty key view k Hk))
    as (m & Hm & Hstat).
  exists m. by rewrite Hm.
Qed.

Lemma top_median_spec key n view :
  top_median key n view = take n (ranked key view)
  ∧ ranked key view ≡ₚ salary_median (groupby String.le key view)
  ∧ fst <$> ranked key view ≡ₚ unique (key <$> view)
  ∧ (∃ ms : list Q,
       snd <$> ranked key view = Some <$> ms ∧ Sorted (flip Qle) ms)
  ∧ length (top_median key n view)
      = (n `min` length (unique (key <$> view)))%nat
  ∧ ((length (unique (key <$> view)) < n)%nat →
       top_median key n view = ranked key view)
  ∧ ((n ≤ length (unique (key <$> view)))%nat →
       length (top_median key n view) = n).
Proof.
  split_and!; try done.
  - apply ranked_Permutation.
  - apply ranked_keys.
  - apply ranked_sorted.
  - unfold top_median, head. fold (ranked key view).
    by rewrite length_take, length_ranked.
  - intros Hfew. unfold top_median, head. fold (ranked key view).
    apply take_ge. rewrite length_ranked. lia.
  - intros Hmany. unfold top_median, head. fold (ranked key view).
    apply length_take_le. by rewrite length_ranked.
Qed.
End TopMedianFacts.



(** ** The run of the script *)

Section DashboardFacts.
Context {registry : Registry} {kernel : SortKernel}.

Lemma take_positions_nil {A} (p : list nat) : take_positions (@nil A) p = [].
Proof. unfold take_positions. by induction p. Qed.

Lemma top_median_nil (key : Row → string) (n : nat) : top_median key n [] = [].
Proof.
  unfold top_median, head, ranked, sort_values.
  change (salary_median (groupby String.le key [])) with (@nil (string * float)).
  rewrite take_positions_nil. by destruct n.
Qed.

(** The page and the outcome of a run, by the first row of the top-job
    aggregate. *)
Lemma dashboard_run (csv : list SalaryRecord) (sel : Selection) :
  let df := enriched csv in
  let view := df_f df sel in
  let line := LineChart (trend_points (trend df sel)) in
  run (dashboard csv sel) =
    match job_salary view with
    | [] => (Raise IndexError, [line])
    | (top_job, top_salary) :: _ =>
        let bars := JobBarChart (with_color top_job (job_salary view)) in
        match int_of_float top_salary with
        | Ok amount =>
            (Ok (), [line; bars;
                     Card top_job ("$" +:+ format_thousands amount);
                     CountryBarChart (country_salary view)])
        | Raise e => (Raise e, [line; bars])
        end
    end.
Proof.
  unfold run, dashboard. cbn zeta.
  unfold mbind at 1, App_bind, lift. rewrite enrich_Ok.
  unfold mbind at 1, App_bind, render. cbn [app].
  unfold mbind at 1, App_bind, lift, iloc.
  destruct (job_salary (df_f (enriched csv) sel)) as [|[top_job top_salary] js];
    [done|].
  cbn [lookup list_lookup fst snd].
  unfold mbind at 1, App_bind, render. cbn [app].
  unfold mbind at 1, App_bind, lift.
  destruct (int_of_float top_salary) as [amount|e]; [|done].
  unfold mbind, App_bind. by cbn.
Qed.
End DashboardFacts.

(** C1. What the script does on an empty view: with an empty country or
    level selection the view is empty; the two aggregates of an empty view
    are empty; and on every empty view the run stops at
    [job_salary.iloc[0]] with [IndexError], after the trend chart, so the
    bar charts and the card are not rendered. *)
Theorem empty_view_raises_IndexError (registry : Registry)
    (kernel : SortKernel) (csv : list SalaryRecord) :
  (∀ y levels, df_f (enriched csv) (mkSelection y [] levels) = [])
  ∧ (∀ y countries, df_f (enriched csv) (mkSelection y countries []) = [])
  ∧ job_salary [] = []
  ∧ country_salary [] = []
  ∧ (∀ sel, df_f (enriched csv) sel = [] →
       run (dashboard csv sel)
         = (Raise IndexError,
            [LineChart (trend_points (trend (enriched csv) sel))])).
Proof.
  split_and!.
  - intros y levels. rewrite df_f_filter. apply filter_none, Forall_forall.
    intros r _ (_ & Hin & _). by apply elem_of_nil in Hin.
  - intros y countries. rewrite df_f_filter. apply filter_none, Forall_forall.
    intros r _ (_ & _ & Hin). by apply elem_of_nil in Hin.
  - apply top_median_nil.
  - apply top_median_nil.
  - intros sel Hempty. rewrite dashboard_run. cbn zeta.
    rewrite Hempty. unfold job_salary. by rewrite top_median_nil.
Qed.

(** The scenario table with every country deselected. *)
Example empty_country_selection_run :
  run (dashboard (registry := sample_registry) (kernel := insertion_kernel)
         scenario_csv (mkSelection 2023 [] ["SE"; "EN"]))
    = (Raise IndexError,
       [LineChart [(2023, Some 50000%Q, Some "Entry-level");
                   (2023, Some (320001 # 2)%Q, Some "Senior-level")]]).
Proof. vm_compute. reflexivity. Qed.

(** ** The summary card *)

Lemma int_truncates (m : Q) :
  let n := Z.quot (Qnum m) (Z.pos (Qden m)) in
  ((0 <= m)%Q → (inject_Z n <= m)%Q ∧ (m < inject_Z (n + 1))%Q)
  ∧ ((m <= 0)%Q → (m <= inject_Z n)%Q ∧ (inject_Z (n - 1) < m)%Q).
Proof.
  destruct m as [a b]. cbn zeta. unfold Qle, Qlt. cbn.
  pose proof (Z.quot_rem' a (Z.pos b)) as Hdiv.
  split; intros Hsign.
  - pose proof (Z.rem_bound_pos a (Z.pos b)) as Hrem. nia.
  - pose proof (Z.rem_bound_pos_neg a (Z.pos b)) as Hrem. nia.
Qed.

Lemma top_median_first_row_not_nan {kernel : SortKernel} (key : Row → string)
    (n : nat) (view : list Row) :
  top_median key n view ≠ [] →
  ∃ k m rest, top_median key n view = (k, Some m) :: rest.
Proof.
  intros Hne. destruct (top_median key n view) as [|[k v] rest] eqn:Htop;
    [done|].
  assert ((k, v) ∈ top_median key n view) as Hin by (rewrite Htop; by left).
  apply elem_of_top_median in Hin as (m & -> & _). by exists k, m, rest.
Qed.

(** C10. When the top-job aggregate is not empty the run completes, its
    first row holds a median [m] (never NaN), and the card shows that
    row's job title and [int(m)], written with thousands separators after
    a dollar sign. [int(m)] is [m] truncated toward zero: for [m >= 0] the
    largest integer not above [m], so a median of 160000.5 shows as
    160,000. *)
Theorem card_shows_truncated_median (registry : Registry)
    (kernel : SortKernel) (csv : list SalaryRecord) (sel : Selection)
    (Hrows : job_salary (df_f (enriched csv) sel) ≠ []) :
  ∃ (top_job : string) (m : Q) (rest : list (string * float)),
    let view := df_f (enriched csv) sel in
    let amount := Z.quot (Qnum m) (Z.pos (Qden m)) in
    job_salary view = (top_job, Some m) :: rest
    ∧ run (dashboard csv sel)
        = (Ok (),
           [LineChart (trend_points (trend (enriched csv) sel));
            JobBarChart (with_color top_job (job_salary view));
            Card top_job ("$" +:+ format_thousands amount);
            CountryBarChart (country_salary view)])
    ∧ ((0 <= m)%Q → (inject_Z amount <= m)%Q ∧ (m < inject_Z (amount + 1))%Q)
    ∧ ((m <= 0)%Q → (m <= inject_Z amount)%Q ∧ (inject_Z (amount - 1) < m)%Q).
Proof.
  destruct (top_median_first_row_not_nan job_title 10 _ Hrows)
    as (top_job & m & rest & Htop).
  exists top_job, m, rest. cbn zeta. split; [done|]. split.
  - rewrite dashboard_run. cbn zeta. unfold job_salary. by rewrite Htop.
  - apply int_truncates.
Qed.

Lemma card_shows_truncated_median_witness :
  run (dashboard (registry := sample_registry) (kernel := insertion_kernel)
         scenario_csv scenario_sel)
    = (Ok (),
       [LineChart [(2023, Some 50000%Q, Some "Entry-level");
                   (2023, Some (320001 # 2)%Q, Some "Senior-level")];
        JobBarChart [("Data Scientist", Some (320001 # 2)%Q, "#2E86C1");
                     ("Analyst", Some 50000%Q, "#AED6F1")];
        Card "Data Scientist" "$160,000";
        CountryBarChart [("United States", Some (320001 # 2)%Q);
                         ("Germany", Some 50000%Q)]]).
Proof.
  destruct (card_shows_truncated_median sample_registry insertion_kernel
              scenario_csv scenario_sel) as (top_job & m & rest & Hrun).
  - vm_compute. discriminate.
  - cbn zeta in Hrun. destruct Hrun as (Hfirst & -> & _).
    vm_compute in Hfirst. injection Hfirst as <- <- <-.
    vm_compute. reflexivity.
Defined.

(** A median of 160001.5 shows as 160,001: rounding to the nearest
    integer, either way of breaking the tie, would show 160,002. *)
Example card_amount_is_not_rounded :
  (n ← int_of_float (Some (320003 # 2)%Q); mret (format_thousands n))
    = Ok "160,001".
Proof. reflexivity. Qed.

Example format_thousands_examples :
  format_thousands 0 = "0" ∧ format_thousands 999 = "999"
  ∧ format_thousands 1000 = "1,000"
  ∧ format_thousands 1234567 = "1,234,567"
  ∧ format_thousands (-1234567) = "-1,234,567".
Proof. by vm_compute. Qed.

(** The scenario of the specification: rows (2023, SE, US, Data Scientist,
    150000), (2023, SE, US, Data Scientist, 170000), (2023, EN, DE,
    Analyst, 50000) with year 2023, both countries and both levels. *)
Example specification_scenario :
  job_salary (kernel := insertion_kernel)
    (df_f (enriched (registry := sample_registry)
             [mkRecord 2023 "SE" "US" "Data Scientist" 150000;
              mkRecord 2023 "SE" "US" "Data Scientist" 170000;
              mkRecord 2023 "EN" "DE" "Analyst" 50000])
          scenario_sel)
    = [("Data Scientist", Some 160000%Q); ("Analyst", Some 50000%Q)].
Proof. by vm_compute. Qed.

(** ** The order of groups with equal medians *)

Section SortedFacts.
Context {A : Type}.
Implicit Types (R : relation A) (l : list A).

Lemma StronglySorted_lookup_lt R l (i j : nat) (x y : A) :
  StronglySorted R l → (i < j)%nat →
  l !! i = Some x → l !! j = Some y → R x y.
Proof.
  intros Hsorted. revert i j.
  induction Hsorted as [|z l Hsorted IH Hall]; intros i j Hij Hi Hj; [done|].
  destruct j as [|j]; [lia|]. cbn in Hj. destruct i as [|i].
  - injection Hi as ->. rewrite Forall_forall in Hall.
    apply Hall. by eapply list_elem_of_lookup_2.
  - cbn in Hi. apply (IH i j); [lia|done..].
Qed.

Lemma StronglySorted_strict R l :
  StronglySorted R l → NoDup l → StronglySorted (λ x y, R x y ∧ x ≠ y) l.
Proof.
  induction 1 as [|z l Hsorted IH Hall]; intros Hnodup; [constructor|].
  apply NoDup_cons in Hnodup as [Hz Hnodup].
  constructor; [by apply IH|].
  rewrite Forall_forall in *. intros y Hy. split; [by apply Hall|].
  by intros ->.
Qed.

Lemma StronglySorted_fmap_inv {B} (f : B → A) R (l : list B) :
  StronglySorted R (f <$> l) → StronglySorted (λ x y, R (f x) (f y)) l.
Proof.
  induction l as [|z l IH]; [constructor|].
  cbn. intros [Hall Hsorted]%StronglySorted_cons.
  constructor; [by apply IH|]. rewrite Forall_fmap in Hall. exact Hall.
Qed.

Lemma StronglySorted_take R l (n : nat) :
  StronglySorted R l → StronglySorted R (take n l).
Proof.
  rewrite <- (take_drop n l) at 1. apply StronglySorted_app_1_l.
Qed.
End SortedFacts.

Section TieOrder.
Context {kernel : SortKernel} (Hstable : StableKernel kernel).

Lemma ranked_tie_order (key : Row → string) (view : list Row) :
  StronglySorted ranked_before (ranked key view).
Proof.
  destruct (salary_median_values String.le key view) as [vs Hvs].
  set (s := salary_median (groupby String.le key view)) in *.
  assert (StronglySorted
            (flip (λ x y : string * float, String.le x.1 y.1 ∧ x.1 ≠ y.1))
            (reverse s)) as Hkeys.
  { apply StronglySorted_reverse. unfold flip.
    apply (StronglySorted_fmap_inv fst (λ k1 k2, String.le k1 k2 ∧ k1 ≠ k2)).
    unfold s. rewrite salary_median_keys.
    apply StronglySorted_strict; [|apply NoDup_group_keys].
    apply (Sorted_StronglySorted String.le), (Sorted_group_keys String.le). }
  assert (length (reverse s) = length (reverse vs)) as Hlen.
  { by rewrite !length_reverse, <- (length_fmap snd), Hvs, length_fmap. }
  assert (∀ i x, reverse s !! i = Some x →
            x.2 = Some (at_pos (reverse vs) i)) as Hval.
  { intros i x Hx.
    assert ((snd <$> reverse s) !! i = Some x.2) as Hsnd
      by (by rewrite list_lookup_fmap, Hx).
    rewrite fmap_reverse, Hvs, <- fmap_reverse, list_lookup_fmap in Hsnd.
    destruct (reverse vs !! i) as [a|] eqn:Ha; [|done].
    injection Hsnd as <-. unfold at_pos. by rewrite (nth_lookup_Some _ _ _ _ Ha). }
  unfold ranked. fold s. rewrite (sort_values_descending s vs Hvs).
  apply StronglySorted_reverse.
  apply (StronglySorted_take_positions (by_value_then_position (reverse vs)));
    [rewrite Hlen; apply argsort_in_range| |apply Hstable].
  intros i j x y Hx Hy Hij. unfold flip.
  exists (at_pos (reverse vs) j), (at_pos (reverse vs) i).
  split; [by apply Hval|]. split; [by apply Hval|].
  destruct Hij as [Hlt|[Heq Hpos]]; [by left|right].
  split; [by symmetry|].
  apply (StronglySorted_lookup_lt _ _ i j x y Hkeys Hpos Hx Hy).
Qed.

Lemma top_median_tie_order (key : Row → string) (n : nat) (view : list Row) :
  StronglySorted ranked_before (top_median key n view).
Proof. apply StronglySorted_take, ranked_tie_order. Qed.
End TieOrder.




(** On the first table numpy's insertion path gives Analyst, Zoologist
    although the table has Zoologist first. *)
Example tie_order_with_insertion_kernel :
  job_salary (kernel := insertion_kernel) tie_view
    = [("Analyst", Some 100000%Q); ("Zoologist", Some 100000%Q)]
  ∧ unique ((job_title : Row → string) <$> tie_view)
    = ["Zoologist"; "Analyst"].
Proof. by vm_compute. Qed.

(** With the tie-reversing kernel, which meets the same contract, the two
    titles of an alphabetical view come out in reverse: nothing in the
    call fixes where equal medians go. *)
Example tie_order_is_the_kernels_choice :
  job_salary (kernel := tie_reversing_kernel) (reverse tie_view)
    = [("Zoologist", Some 100000%Q); ("Analyst", Some 100000%Q)]
  ∧ unique ((job_title : Row → string) <$> reverse tie_view)
    = ["Analyst"; "Zoologist"].
Proof. by vm_compute. Qed.

(** * Further properties of the script *)

(** ** When the run completes *)

Section RunFacts.
Context {registry : Registry} {kernel : SortKernel}.

Lemma unique_nil_iff `{EqDecision A} (col : list A) : unique col = [] ↔ col = [].
Proof. by destruct col. Qed.

Lemma top_median_nil_iff (key : Row → string) (n : nat) (view : list Row) :
  (0 < n)%nat → top_median key n view = [] ↔ view = [].
Proof.
  intros Hn. split; [|intros ->; apply top_median_nil].
  intros Hnil. apply (f_equal length) in Hnil.
  rewrite (proj1 (proj2 (proj2 (proj2 (proj2 (top_median_spec key n view))))))
    in Hnil.
  destruct view as [|r view]; [done|]. cbn in Hnil. lia.
Qed.

Lemma dashboard_outcome (csv : list SalaryRecord) (sel : Selection) :
  let view := df_f (enriched csv) sel in
  let line := LineChart (trend_points (trend (enriched csv) sel)) in
  (view = [] ∧ run (dashboard csv sel) = (Raise IndexError, [line]))
  ∨ (view ≠ [] ∧ ∃ (top_job : string) (m : Q) (rest : list (string * float)),
       job_salary view = (top_job, Some m) :: rest
       ∧ run (dashboard csv sel)
           = (Ok (),
              [line;
               JobBarChart (with_color top_job (job_salary view));
               Card top_job
                 ("$" +:+ format_thousands (Z.quot (Qnum m) (Z.pos (Qden m))));
               CountryBarChart (country_salary view)])).
Proof.
  cbn zeta. destruct (decide (df_f (enriched csv) sel = [])) as [Hnil|Hne].
  - left. split; [done|]. rewrite dashboard_run. cbn zeta.
    rewrite Hnil. unfold job_salary. by rewrite top_median_nil.
  - right. split; [done|].
    destruct (top_median_first_row_not_nan job_title 10
                (df_f (enriched csv) sel)) as (top_job & m & rest & Htop).
    { rewrite top_median_nil_iff; [done|lia]. }
    exists top_job, m, rest. split; [done|].
    rewrite dashboard_run. cbn zeta. unfold job_salary. by rewrite Htop.
Qed.
End RunFacts.


Lemma run_Ok_of_view_nonempty (registry : Registry) (kernel : SortKernel)
    (csv : list SalaryRecord) (sel : Selection) :
  df_f (enriched csv) sel ≠ [] → (run (dashboard csv sel)).1 = Ok ().
Proof.
  intros Hne.
  by destruct (dashboard_outcome csv sel)
    as [[Hnil _]|[_ (top_job & m & rest & _ & ->)]].
Qed.

(** ** The page on first load *)

(** [st.sidebar.selectbox(label, options)] before the user touches it: the
    first option, [None] when there is none. *)
Definition selectbox {A} (options : list A) : option A := options !! 0%nat.

(** The three widgets before the user touches them: the first year, and
    both multi-selects at [default=] all their options. *)
Definition default_selection (df : list Row) : option Selection :=
  y ← selectbox (years df);
  Some (mkSelection y (countries df) (experience_levels df)).

Lemma df_f_full_sets (df : list Row) (y : Z) :
  df_f df (mkSelection y (countries df) (experience_levels df))
    = filter (λ r : Row, work_year r = y) df.
Proof.
  rewrite df_f_filter. apply filter_ext_in. intros r Hr. unfold selected. cbn.
  pose proof (elem_of_countries df r Hr).
  pose proof (elem_of_experience_levels df r Hr). tauto.
Qed.

Lemma years_spec (df : list Row) :
  StronglySorted Z.le (years df)
  ∧ NoDup (years df)
  ∧ ∀ y, y ∈ years df ↔ ∃ r : Row, r ∈ df ∧ work_year r = y.
Proof.
  unfold years. split_and!.
  - apply (StronglySorted_merge_sort Z.le).
  - rewrite merge_sort_Permutation. apply NoDup_unique.
  - intros y. rewrite elem_of_merge_sort, elem_of_unique, list_elem_of_fmap.
    split.
    + intros (r & -> & Hr). by exists r.
    + intros (r & Hr & <-). by exists r.
Qed.



(** ** The options of the widgets *)

Lemma sorted_unique_spec `{EqDecision A} (R : relation A) `{!RelDecision R}
    `{!PartialOrder R, !Total R} (col : list A) :
  StronglySorted (λ a b, R a b ∧ a ≠ b) (merge_sort R (unique col))
  ∧ ∀ a, a ∈ merge_sort R (unique col) ↔ a ∈ col.
Proof.
  split.
  - apply StronglySorted_strict; [apply (StronglySorted_merge_sort R)|].
    rewrite merge_sort_Permutation. apply NoDup_unique.
  - intros a. by rewrite elem_of_merge_sort, elem_of_unique.
Qed.


(** ** The highlighted bar and the card *)

Section TopRowFacts.
Context {kernel : SortKernel}.

Lemma NoDup_top_median_keys (key : Row → string) (n : nat) (view : list Row) :
  NoDup (fst <$> top_median key n view).
Proof.
  unfold top_median, head. rewrite fmap_take.
  apply (sublist_NoDup _ (fst <$> ranked key view)).
  - rewrite ranked_keys. apply NoDup_unique.
  - apply sublist_take.
Qed.

Lemma with_color_first (k : string) (v : float) (rest : list (string * float)) :
  NoDup (fst <$> (k, v) :: rest) →
  with_color k ((k, v) :: rest)
    = (k, v, "#2E86C1") :: ((λ row, (row.1, row.2, "#AED6F1")) <$> rest).
Proof.
  intros [Hk _]%NoDup_cons. unfold with_color. cbn [fmap list_fmap fst snd].
  rewrite decide_True by done. f_equal.
  apply list_fmap_ext. intros _ [k' v'] Hin%list_elem_of_lookup_2. cbn.
  rewrite decide_False; [done|]. intros ->. apply Hk.
  by apply (list_elem_of_fmap_2 fst) in Hin.
Qed.

Lemma ranked_head_is_greatest (key : Row → string) (view : list Row)
    (k : string) (m : Q) (rest : list (string * float)) :
  ranked key view = (k, Some m) :: rest →
  ∀ k' v', (k', v') ∈ ranked key view → ∃ m', v' = Some m' ∧ (m' <= m)%Q.
Proof.
  intros Hranked k' v' Hin.
  destruct (ranked_sorted key view) as (ms & Hms & Hsorted).
  rewrite Hranked in Hms, Hin. destruct ms as [|m0 ms]; [done|].
  rewrite !fmap_cons in Hms. injection Hms as <- Hms.
  assert (Transitive (flip Qle)) as Htrans
    by (intros x y z Hxy Hyz; unfold flip in *; by eapply Qle_trans).
  apply (Sorted_StronglySorted (flip Qle)) in Hsorted.
  apply StronglySorted_cons in Hsorted as [Hall _].
  apply elem_of_cons in Hin as [[= -> ->]|Hin].
  - exists m. split; [done|apply Qle_refl].
  - apply (list_elem_of_fmap_2 snd) in Hin. rewrite Hms in Hin. cbn in Hin.
    apply list_elem_of_fmap in Hin as (m' & -> & Hm').
    exists m'. split; [done|]. rewrite Forall_forall in Hall. by apply Hall.
Qed.

Lemma top_median_head (key : Row → string) (n : nat) (view : list Row)
    (row : string * float) (rest : list (string * float)) :
  top_median key n view = row :: rest →
  ∃ rest', ranked key view = row :: rest'.
Proof.
  unfold top_median, head. destruct (ranked key view) as [|row' rest'].
  - by rewrite take_nil.
  - destruct n; [done|]. cbn. intros [= -> _]. by exists rest'.
Qed.
End TopRowFacts.

(** X4. When the top-job aggregate has rows, the bar chart colours its
    first bar, the top job's, [#2E86C1] and every other bar [#AED6F1]:
    the job titles of the aggregate are distinct, so no second bar
    matches [top_job]. *)
Theorem only_top_job_is_highlighted (kernel : SortKernel) (view : list Row)
    (top_job : string) (top_salary : float) (rest : list (string * float))
    (Hrows : job_salary view = (top_job, top_salary) :: rest) :
  with_color top_job (job_salary view)
    = (top_job, top_salary, "#2E86C1")
        :: ((λ row, (row.1, row.2, "#AED6F1")) <$> rest).
Proof.
  rewrite Hrows. apply with_color_first. rewrite <- Hrows.
  apply NoDup_top_median_keys.
Qed.

Lemma only_top_job_is_highlighted_witness :
  with_color "Data Scientist"
    (job_salary (kernel := insertion_kernel)
       (df_f (enriched (registry := sample_registry) scenario_csv)
          scenario_sel))
    = [("Data Scientist", Some (320001 # 2)%Q, "#2E86C1");
       ("Analyst", Some 50000%Q, "#AED6F1")].
Proof.
  exact (only_top_job_is_highlighted insertion_kernel
           (df_f (enriched (registry := sample_registry) scenario_csv)
              scenario_sel)
           "Data Scientist" (Some (320001 # 2)%Q)
           [("Analyst", Some 50000%Q)] eq_refl).
Defined.

(** X5. The job on the card is the best paid of the whole view, not only
    of the ten rows shown: the median of every job title of the view is
    at most the median in the first row of the top-job aggregate. *)
Theorem top_job_has_greatest_median (kernel : SortKernel) (view : list Row)
    (top_job : string) (m : Q) (rest : list (string * float))
    (Hrows : job_salary view = (top_job, Some m) :: rest) :
  ∀ r : Row, r ∈ view →
    ∃ m', median ((λ r' : Row, salary_in_usd r')
                    <$> filter (λ r' : Row, job_title r' = job_title r) view)
            = Some m'
          ∧ (m' <= m)%Q.
Proof.
  intros r Hr.
  apply top_median_head in Hrows as [rest' Hranked].
  destruct (ranked_head_is_greatest job_title view top_job m rest' Hranked
              (job_title r)
              (median ((λ r' : Row, salary_in_usd r')
                         <$> filter (λ r' : Row, job_title r' = job_title r)
                               view)))
    as (m' & Hm' & Hle); [|by exists m'].
  rewrite ranked_Permutation. apply elem_of_salary_median.
  split; [by exists r|done].
Qed.

Lemma top_job_has_greatest_median_witness :
  ∃ m', median ((λ r' : Row, salary_in_usd r')
                  <$> filter (λ r' : Row, job_title r' = "Analyst")
                        (df_f (enriched (registry := sample_registry)
                                 scenario_csv) scenario_sel))
          = Some m'
        ∧ (m' <= 320001 # 2)%Q.
Proof.
  apply (top_job_has_greatest_median insertion_kernel
           (df_f (enriched (registry := sample_registry) scenario_csv)
              scenario_sel)
           "Data Scientist" (320001 # 2)%Q [("Analyst", Some 50000%Q)]
           eq_refl
           (mkRow (mkRecord 2023 "EN" "DE" "Analyst" 50000) "Germany")).
  vm_compute. repeat constructor.
Defined.

(** ** The order of the rows of the table does not matter *)

Section RowOrder.
Context `{EqDecision K} (le : relation K) `{!RelDecision le}.
Context `{!PartialOrder le, !Total le}.

Lemma unique_Permutation `{EqDecision A} (l1 l2 : list A) :
  l1 ≡ₚ l2 → unique l1 ≡ₚ unique l2.
Proof.
  intros Hperm. apply NoDup_Permutation; [apply NoDup_unique..|].
  intros x. by rewrite !elem_of_unique, Hperm.
Qed.

Lemma merge_sort_Permutation_eq (l1 l2 : list K) :
  l1 ≡ₚ l2 → merge_sort le l1 = merge_sort le l2.
Proof.
  intros Hperm. apply (Sorted_unique le).
  - apply (Sorted_merge_sort le).
  - apply (Sorted_merge_sort le).
  - by rewrite !merge_sort_Permutation.
Qed.

Lemma group_keys_row_order (key : Row → K) (df1 df2 : list Row) :
  df1 ≡ₚ df2 → group_keys le key df1 = group_keys le key df2.
Proof.
  intros Hperm. unfold group_keys.
  apply merge_sort_Permutation_eq, unique_Permutation. by rewrite Hperm.
Qed.
End RowOrder.

Lemma median_Permutation (a1 a2 : list Z) : a1 ≡ₚ a2 → median a1 = median a2.
Proof.
  intros Hperm. unfold median, kth_smallest.
  rewrite (Permutation_length Hperm).
  by rewrite (merge_sort_Permutation_eq Z.le a1 a2 Hperm).
Qed.

Lemma salary_median_row_order `{EqDecision K} (le : relation K)
    `{!RelDecision le} `{!PartialOrder le, !Total le}
    (key : Row → K) (df1 df2 : list Row) :
  df1 ≡ₚ df2 →
  salary_median (groupby le key df1) = salary_median (groupby le key df2).
Proof.
  intros Hperm. unfold salary_median, groupby.
  rewrite <- !list_fmap_compose.
  rewrite (group_keys_row_order le key df1 df2 Hperm).
  apply list_fmap_ext. intros _ k _. cbn. f_equal.
  apply median_Permutation. by rewrite Hperm.
Qed.

Section RowOrderRun.
Context {registry : Registry} {kernel : SortKernel}.

Lemma top_median_row_order (key : Row → string) (n : nat)
    (view1 view2 : list Row) :
  view1 ≡ₚ view2 → top_median key n view1 = top_median key n view2.
Proof.
  intros Hperm. unfold top_median, ranked.
  by rewrite (salary_median_row_order String.le key view1 view2 Hperm).
Qed.

Lemma trend_row_order (df1 df2 : list Row) (sel : Selection) :
  df1 ≡ₚ df2 → trend df1 sel = trend df2 sel.
Proof.
  intros Hperm. rewrite !trend_unfold.
  apply (salary_median_row_order year_level_le). by rewrite Hperm.
Qed.

Lemma df_f_row_order (df1 df2 : list Row) (sel : Selection) :
  df1 ≡ₚ df2 → df_f df1 sel ≡ₚ df_f df2 sel.
Proof. intros Hperm. rewrite !df_f_filter. by rewrite Hperm. Qed.
End RowOrderRun.

(** X6. Reordering the rows of the loaded table changes nothing on the
    page: the trend, the two ranked aggregates, the card and the outcome
    of the run are the same for two tables with the same rows in a
    different order. *)
Theorem page_ignores_row_order (registry : Registry) (kernel : SortKernel)
    (csv1 csv2 : list SalaryRecord) (sel : Selection)
    (Hrows : csv1 ≡ₚ csv2) :
  run (dashboard csv1 sel) = run (dashboard csv2 sel).
Proof.
  assert (enriched csv1 ≡ₚ enriched csv2) as Hdf
    by (unfold enriched; by rewrite Hrows).
  pose proof (df_f_row_order _ _ sel Hdf) as Hview.
  rewrite !dashboard_run. cbn zeta. unfold job_salary, country_salary.
  rewrite (trend_row_order _ _ sel Hdf).
  rewrite (top_median_row_order job_title 10 _ _ Hview).
  by rewrite (top_median_row_order country_name 20 _ _ Hview).
Qed.

Lemma page_ignores_row_order_witness :
  run (dashboard (registry := sample_registry) (kernel := insertion_kernel)
         scenario_csv scenario_sel)
    = run (dashboard (registry := sample_registry)
             (kernel := insertion_kernel) (reverse scenario_csv) scenario_sel).
Proof.
  apply (page_ignores_row_order sample_registry insertion_kernel).
  symmetry. apply reverse_Permutation.
Defined.

(** ** The range of a reported median *)

Lemma kth_smallest_elem_of (a : list Z) (k : nat) :
  (k < length a)%nat → kth_smallest a k ∈ a.
Proof.
  intros Hk. apply (elem_of_merge_sort Z.le).
  eapply list_elem_of_lookup_2. by apply kth_smallest_lookup.
Qed.

Lemma median_range (a : list Z) (lo hi : Z) :
  a ≠ [] → (∀ x, x ∈ a → (lo ≤ x ≤ hi)%Z) →
  ∃ m, median a = Some m
       ∧ (inject_Z lo <= m)%Q ∧ (m <= inject_Z hi)%Q
       ∧ ∃ z : Z, (m * 2 == inject_Z z)%Q.
Proof.
  intros Ha Hbounds. unfold median.
  assert (length a ≠ 0%nat) as Hn by (by destruct a).
  pose proof (half_lt_length a Ha) as Hhalf.
  rewrite decide_False by done.
  destruct (Nat.odd (length a)); eexists; (split; [done|]).
  - pose proof (Hbounds _ (kth_smallest_elem_of a _ Hhalf)) as [Hlo Hhi].
    set (x := kth_smallest a (length a / 2)) in *.
    split_and!; [unfold Qle, inject_Z; cbn; lia..|].
    exists (x * 2)%Z. unfold Qeq, inject_Z. cbn. lia.
  - assert (length a / 2 - 1 < length a)%nat as Hhalf' by lia.
    pose proof (Hbounds _ (kth_smallest_elem_of a _ Hhalf)) as [Hlo Hhi].
    pose proof (Hbounds _ (kth_smallest_elem_of a _ Hhalf')) as [Hlo' Hhi'].
    rewrite Qred_correct.
    set (x := kth_smallest a (length a / 2)) in *.
    set (y := kth_smallest a (length a / 2 - 1)) in *.
    split_and!.
    + unfold Qle, inject_Z. cbn. lia.
    + unfold Qle, inject_Z. cbn. lia.
    + exists (x + y)%Z. rewrite Qred_correct. unfold Qeq, inject_Z. cbn. lia.
Qed.

Section MedianRange.
Context {kernel : SortKernel}.

Lemma top_median_range (key : Row → string) (n : nat) (view : list Row)
    (k : string) (v : float) (lo hi : Z) :
  (k, v) ∈ top_median key n view →
  (∀ r : Row, r ∈ view → key r = k → (lo ≤ salary_in_usd r ≤ hi)%Z) →
  ∃ m, v = Some m ∧ (inject_Z lo <= m)%Q ∧ (m <= inject_Z hi)%Q
       ∧ ∃ z : Z, (m * 2 == inject_Z z)%Q.
Proof.
  unfold top_median, head. intros Hin%(subseteq_take n) Hbounds.
  rewrite ranked_Permutation in Hin.
  apply elem_of_salary_median in Hin as [Hk ->].
  apply median_range; [by apply group_nonempty|].
  intros x (r & -> & [Hkey Hr]%list_elem_of_filter)%list_elem_of_fmap.
  by apply Hbounds.
Qed.
End MedianRange.


(** ** Narrowing the selection *)

(** X8. The filtered view keeps rows of the table in their order, without
    repeating any. Filtering a view again with the same selection changes
    nothing, and a selection with the same year and fewer countries and
    levels gives a view that is what the same filter leaves of the wider
    view. *)
Theorem narrower_selection_narrows_view (df : list Row) (sel sel' : Selection) :
  df_f df sel `sublist_of` df
  ∧ df_f (df_f df sel) sel = df_f df sel
  ∧ (selected_year sel = selected_year sel' →
     selected_country sel ⊆ selected_country sel' →
     selected_exp sel ⊆ selected_exp sel' →
     df_f (df_f df sel') sel = df_f df sel
     ∧ df_f df sel `sublist_of` df_f df sel').
Proof.
  assert (∀ s s', (∀ r, selected s r → selected s' r) →
            df_f (df_f df s') s = df_f df s) as Hnarrow.
  { intros s s' Himpl. rewrite !df_f_filter, list_filter_filter.
    apply filter_ext_in. intros r _. split; [tauto|].
    intros Hs. split; [done|by apply Himpl]. }
  split_and!.
  - rewrite df_f_filter. apply sublist_filter.
  - by apply Hnarrow.
  - intros Hyear Hcountry Hexp.
    assert (df_f (df_f df sel') sel = df_f df sel) as Heq.
    { apply Hnarrow. intros r (Hy & Hc & Hl). unfold selected.
      rewrite <- Hyear. split_and!; [done|by apply Hcountry|by apply Hexp]. }
    split; [done|]. rewrite <- Heq, (df_f_filter (df_f df sel')).
    apply sublist_filter.
Qed.

(** ** Group-by partitions the rows *)

Section Partition.
Context {A K : Type} `{EqDecision K} (f : A → K).

Lemma partition_by_key (ks : list K) (l : list A) :
  NoDup ks → (∀ x, x ∈ l → f x ∈ ks) →
  concat ((λ k, filter (λ x, f x = k) l) <$> ks) ≡ₚ l.
Proof.
  intros Hnodup. revert l.
  induction Hnodup as [|k ks Hk Hnodup IH]; intros l Hcover.
  - destruct l as [|x l]; [done|].
    assert (f x ∈ @nil K) as Hin by (apply Hcover; by left).
    by apply elem_of_nil in Hin.
  - cbn [fmap list_fmap concat].
    etrans; [|apply (filter_app_complement (λ x, f x = k) l)].
    apply Permutation_app_head.
    etrans; [|apply (IH (filter (λ x, ¬ f x = k) l))].
    + apply reflexive_eq. f_equal. apply list_fmap_ext.
      intros _ k' Hk'%list_elem_of_lookup_2.
      rewrite list_filter_filter. apply filter_ext_in.
      intros x _. split; [|tauto]. intros Hx. split; [done|].
      intros Hxk. apply Hk. by rewrite <- Hxk, Hx.
    + intros x [Hx Hin]%list_elem_of_filter.
      apply Hcover in Hin. apply elem_of_cons in Hin as [Heq|Hin]; [done|].
      exact Hin.
Qed.
End Partition.

(** X9. Group-by puts every row of its input into exactly one group: the
    groups, read one after the other, are a rearrangement of the input;
    the keys of the groups are distinct; no group is empty; and a group
    holds the rows with its key, in their order in the input. *)
Theorem groupby_partitions_rows `{EqDecision K} (le : relation K)
    `{!RelDecision le} (key : Row → K) (df : list Row) :
  concat (snd <$> groupby le key df) ≡ₚ df
  ∧ NoDup (fst <$> groupby le key df)
  ∧ Forall (λ kg : K * list Row,
      kg.2 ≠ [] ∧ Forall (λ r, key r = kg.1) kg.2 ∧ kg.2 `sublist_of` df)
      (groupby le key df).
Proof.
  unfold groupby. rewrite <- !list_fmap_compose. split_and!.
  - apply (partition_by_key key); [apply NoDup_group_keys|].
    intros r Hr. apply elem_of_group_keys. by exists r.
  - rewrite list_fmap_id. apply NoDup_group_keys.
  - apply Forall_fmap, Forall_forall. intros k Hk%elem_of_group_keys. cbn.
    split_and!.
    + intros Hnil. apply (group_nonempty key df k Hk). by rewrite Hnil.
    + apply Forall_forall. by intros r [Hr _]%list_elem_of_filter.
    + apply sublist_filter.
Qed.

(** ** Legend labels of the trend chart *)

Lemma exp_map_None (level : string) :
  exp_map !! level = None ↔ level ∉ ["EN"; "MI"; "SE"; "EX"].
Proof.
  unfold exp_map. by rewrite <- not_elem_of_list_to_map.
Qed.

Lemma exp_map_Some (level label : string) :
  exp_map !! level = Some label →
  (level, label) ∈ [("EN", "Entry-level"); ("MI", "Mid-level");
                    ("SE", "Senior-level"); ("EX", "Executive-level")].
Proof. apply elem_of_list_to_map_2. Qed.


(** ** The amount on the card reads back *)

(** A numeral with its thousands separators deleted. *)
Definition strip_commas (s : string) : string :=
  string_of_list_ascii
    (filter (λ c, c ≠ ","%char) (list_ascii_of_string s)).

Lemma group_thousands_strip_le (n : nat) (l : list ascii) :
  (length l ≤ n)%nat → Forall (λ c, c ≠ ","%char) l →
  filter (λ c, c ≠ ","%char) (group_thousands l) = l.
Proof.
  revert l. induction n as [|n IH]; intros l Hlen Hdigits.
  { destruct l; [done|cbn in Hlen; lia]. }
  destruct l as [|a [|b [|c [|d rest]]]]; try (by apply filter_all).
  change (group_thousands (a :: b :: c :: d :: rest))
    with (a :: b :: c :: ","%char :: group_thousands (d :: rest)).
  apply Forall_cons in Hdigits as [Ha Hdigits].
  apply Forall_cons in Hdigits as [Hb Hdigits].
  apply Forall_cons in Hdigits as [Hc Hdigits].
  rewrite !filter_cons_True by done. rewrite filter_cons_False by (by intros []).
  do 3 f_equal. apply IH; [cbn in *; lia|done].
Qed.

Lemma group_thousands_strip (l : list ascii) :
  Forall (λ c, c ≠ ","%char) l →
  filter (λ c, c ≠ ","%char) (group_thousands l) = l.
Proof. by apply (group_thousands_strip_le (length l)). Qed.

Lemma digits_have_no_comma (d : Decimal.uint) :
  Forall (λ c, c ≠ ","%char) (list_ascii_of_string (NilZero.string_of_uint d)).
Proof.
  assert (Forall (λ c, c ≠ ","%char)
            (list_ascii_of_string (NilEmpty.string_of_uint d))) as Hd.
  { induction d; cbn; constructor; done. }
  destruct d; [cbn; by repeat constructor|exact Hd..].
Qed.

Lemma strip_grouped_digits (d : Decimal.uint) :
  filter (λ c, c ≠ ","%char)
    (list_ascii_of_string
       (string_of_list_ascii
          (reverse (group_thousands
                      (reverse (list_ascii_of_string
                                  (NilZero.string_of_uint d)))))))
    = list_ascii_of_string (NilZero.string_of_uint d).
Proof.
  rewrite list_ascii_of_string_of_list_ascii, filter_reverse.
  rewrite group_thousands_strip; [apply reverse_involutive|].
  apply Forall_reverse, digits_have_no_comma.
Qed.

(** X11. The separators are all that [f"{n:,}"] adds: with the commas
    deleted, the amount on the card is the plain decimal numeral of the
    integer, sign included, and reading that numeral gives the integer
    back. *)
Theorem thousands_separators_keep_the_numeral (n : Z) :
  strip_commas (format_thousands n) = NilZero.string_of_int (Z.to_int n)
  ∧ Z.of_int <$> NilZero.int_of_string (strip_commas (format_thousands n))
      = Some n.
Proof.
  assert (strip_commas (format_thousands n)
          = NilZero.string_of_int (Z.to_int n)) as Hstrip.
  { unfold strip_commas, format_thousands. cbn zeta.
    destruct n as [|p|p]; cbn [Z.abs_N N.to_uint Z.to_int NilZero.string_of_int].
    - by vm_compute.
    - rewrite decide_False by lia.
      rewrite strip_grouped_digits. apply string_of_list_ascii_of_string.
    - rewrite decide_True by lia.
      change (list_ascii_of_string ("-" +:+ ?s))
        with ("-"%char :: list_ascii_of_string s).
      rewrite filter_cons_True by done.
      rewrite strip_grouped_digits. cbn [string_of_list_ascii].
      f_equal. apply string_of_list_ascii_of_string. }
  split; [done|]. rewrite Hstrip, NilZero.isi.
  - cbn. f_equal. apply DecimalZ.of_to.
  - destruct n as [|p|p]; [done| |done].
    intros [= Hnil]. by apply DecimalPos.Unsigned.to_uint_nonnil in Hnil.
  - destruct n as [|p|p]; [done|done|].
    intros [= Hnil]. by apply DecimalPos.Unsigned.to_uint_nonnil in Hnil.
Qed.

(** ** The bar charts show selected rows only *)

Lemma top_median_key_in_view {kernel : SortKernel} (key : Row → string)
    (n : nat) (view : list Row) (k : string) (v : float) :
  (k, v) ∈ top_median key n view → ∃ r : Row, r ∈ view ∧ key r = k.
Proof.
  unfold top_median, head. intros Hin%(subseteq_take n).
  rewrite ranked_Permutation in Hin.
  by apply elem_of_salary_median in Hin as [Hk _].
Qed.

(** X12. A bar of either bar chart comes from a row that passed the
    filter: a job title on the top-job chart is the title of a row of the
    selected year, a selected country and a selected level, and a country
    on the country chart is one of the selected countries and occurs in
    the table. *)
Theorem bar_charts_show_selected_rows_only (kernel : SortKernel)
    (df : list Row) (sel : Selection) :
  (∀ t v, (t, v) ∈ job_salary (df_f df sel) →
     ∃ r : Row, r ∈ df ∧ job_title r = t
       ∧ work_year r = selected_year sel
       ∧ country_name r ∈ selected_country sel
       ∧ experience_level r ∈ selected_exp sel)
  ∧ (∀ c v, (c, v) ∈ country_salary (df_f df sel) →
       c ∈ selected_country sel ∧ c ∈ countries df).
Proof.
  split.
  - intros t v (r & Hr & Ht)%top_median_key_in_view.
    rewrite df_f_filter in Hr. apply list_elem_of_filter in Hr as [Hsel Hr].
    exists r. unfold selected in Hsel. tauto.
  - intros c v (r & Hr & <-)%top_median_key_in_view.
    rewrite df_f_filter in Hr. apply list_elem_of_filter in Hr as [Hsel Hr].
    split; [apply Hsel|by apply elem_of_countries].
Qed.
